(** * kOmegaSSTLowRe: the k-omega-SST closure with low-Re extensions

    A shallow embedding of [kOmegaSSTLowRe.H].  OpenFOAM's [scalar] is
    read as a real number, a [dimensionedScalar] as its value, and a
    [volScalarField] as one scalar per mesh cell; field arithmetic is
    cell-wise, as the overloaded operators of the field classes are. *)

From Stdlib Require Import Reals Lra Bool List.

Open Scope R_scope.

(** ** Scalars and fields *)

Abbreviation scalar := R (only parsing).

Abbreviation dimensionedScalar := R (only parsing).

Definition sqr (x : scalar) : scalar := x * x.

Definition pow4 (x : scalar) : scalar := sqr (sqr x).

Section Fields.

(** The cells of the mesh the model lives on. *)
Variable cell : Type.

Definition volScalarField := cell -> scalar.

(** A [dimensionedScalar] used where a field is expected. *)
Definition uniform (s : dimensionedScalar) : volScalarField := fun _ => s.

Definition fadd (a b : volScalarField) : volScalarField := fun c => a c + b c.
Definition fsub (a b : volScalarField) : volScalarField := fun c => a c - b c.
Definition fmul (a b : volScalarField) : volScalarField := fun c => a c * b c.
Definition fdiv (a b : volScalarField) : volScalarField := fun c => a c / b c.
Definition fmax (a b : volScalarField) : volScalarField := fun c => Rmax (a c) (b c).
Definition fmin (a b : volScalarField) : volScalarField := fun c => Rmin (a c) (b c).
Definition fmap (f : scalar -> scalar) (a : volScalarField) : volScalarField :=
  fun c => f (a c).

(** ** Model coefficients (the protected data of the class) *)

Record Coeffs : Type := mkCoeffs {
  betaInf_ : dimensionedScalar;
  beta1_ : dimensionedScalar;
  beta2_ : dimensionedScalar;
  RBeta_ : dimensionedScalar;
  RK_ : dimensionedScalar;
  ROmega_ : dimensionedScalar;
  betaStarInf_ : dimensionedScalar;
  alphaStarInf_ : dimensionedScalar;
  kappa_ : dimensionedScalar;
  sigmaOmega1_ : dimensionedScalar;
  sigmaOmega2_ : dimensionedScalar;
  sigmaK1_ : dimensionedScalar;
  sigmaK2_ : dimensionedScalar;
  alphaZero_ : dimensionedScalar;
  a1_ : dimensionedScalar;
  b1_ : dimensionedScalar;
  c1_ : dimensionedScalar;
  F3_ : bool
}.

(** ** The model object

    The coefficients, the two transported fields, and what the class
    inherits from [eddyViscosity] and the transport model: the eddy
    viscosity [nut_], the laminar viscosity [nu()] and the wall
    distance [y_]. *)

Record Model : Type := mkModel {
  coeffs : Coeffs;
  y_ : volScalarField;
  k_ : volScalarField;
  omega_ : volScalarField;
  nut_ : volScalarField;
  nu : volScalarField
}.

(** ** Private member functions defined in the header *)

(** [blend]: [F1*(psi1 - psi2) + psi2]. *)
Definition blend (F1 : volScalarField) (psi1 psi2 : dimensionedScalar)
  : volScalarField :=
  fadd (fmul F1 (uniform (psi1 - psi2))) (uniform psi2).

Definition alphaInf (C : Coeffs) (F1 : volScalarField) : volScalarField :=
  blend F1
    (beta1_ C / betaStarInf_ C
       - sqr (kappa_ C) / (sigmaOmega1_ C * sqrt (betaStarInf_ C)))
    (beta2_ C / betaStarInf_ C
       - sqr (kappa_ C) / (sigmaOmega2_ C * sqrt (betaStarInf_ C))).

Definition betaI (C : Coeffs) (F1 : volScalarField) : volScalarField :=
  blend F1 (beta1_ C) (beta2_ C).

(** The non-compressible version: [beta] is [betaI]. *)
Definition beta (C : Coeffs) (F1 : volScalarField) : volScalarField :=
  betaI C F1.

Definition sigmaK (C : Coeffs) (F1 : volScalarField) : volScalarField :=
  fdiv (uniform 1) (blend F1 (1 / sigmaK1_ C) (1 / sigmaK2_ C)).

Definition sigmaOmega (C : Coeffs) (F1 : volScalarField) : volScalarField :=
  fdiv (uniform 1) (blend F1 (1 / sigmaOmega1_ C) (1 / sigmaOmega2_ C)).

(** ** Public member functions defined in the header *)

Definition DkEff (m : Model) (F1 : volScalarField) : volScalarField :=
  fadd (fdiv (nut_ m) (sigmaK (coeffs m) F1)) (nu m).

Definition DomegaEff (m : Model) (F1 : volScalarField) : volScalarField :=
  fadd (fdiv (nut_ m) (sigmaOmega (coeffs m) F1)) (nu m).

(** ** Member functions as state transformers

    A member function takes the model object and returns its result
    together with the object it leaves behind; a [const] member
    function hands the object back as it found it. *)

Definition method (A : Type) : Type := Model -> A * Model.

Definition ret {A : Type} (a : A) : method A := fun m => (a, m).

Definition bind {A B : Type} (f : method A) (g : A -> method B) : method B :=
  fun m => let (a, m') := f m in g a m'.

Definition gets {A : Type} (f : Model -> A) : method A := fun m => (f m, m).

Definition modify (f : Model -> Model) : method unit := fun m => (tt, f m).

Definition exec {A : Type} (f : method A) (m : Model) : Model := snd (f m).

Definition set_coeffs (C : Coeffs) (m : Model) : Model :=
  mkModel C (y_ m) (k_ m) (omega_ m) (nut_ m) (nu m).

Definition set_k (f : volScalarField) (m : Model) : Model :=
  mkModel (coeffs m) (y_ m) f (omega_ m) (nut_ m) (nu m).

Definition set_omega (f : volScalarField) (m : Model) : Model :=
  mkModel (coeffs m) (y_ m) (k_ m) f (nut_ m) (nu m).

Definition set_nut (f : volScalarField) (m : Model) : Model :=
  mkModel (coeffs m) (y_ m) (k_ m) (omega_ m) f (nu m).

(** [k()], [omega()] and [epsilon()] are [const]. *)
Definition k : method volScalarField := gets k_.

Definition omega : method volScalarField := gets omega_.

(** [0.09*k_*omega_], with the literal 0.09 ("not SST version"). *)
Definition epsilon : method volScalarField :=
  gets (fun m => fmul (fmul (uniform 0.09) (k_ m)) (omega_ m)).

End Fields.

Arguments uniform {cell} s _.
Arguments fadd {cell} a b _.
Arguments fsub {cell} a b _.
Arguments fmul {cell} a b _.
Arguments fdiv {cell} a b _.
Arguments fmax {cell} a b _.
Arguments fmin {cell} a b _.
Arguments fmap {cell} f a _.
Arguments mkModel {cell}.
Arguments coeffs {cell}.
Arguments y_ {cell}.
Arguments k_ {cell}.
Arguments omega_ {cell}.
Arguments nut_ {cell}.
Arguments nu {cell}.
Arguments blend {cell} F1 psi1 psi2 _.
Arguments alphaInf {cell} C F1 _.
Arguments betaI {cell} C F1 _.
Arguments beta {cell} C F1 _.
Arguments sigmaK {cell} C F1 _.
Arguments sigmaOmega {cell} C F1 _.
Arguments DkEff {cell} m F1 _.
Arguments DomegaEff {cell} m F1 _.
Arguments ret {cell A}.
Arguments bind {cell A B}.
Arguments gets {cell A}.
Arguments modify {cell}.
Arguments exec {cell A}.
Arguments set_coeffs {cell}.
Arguments set_k {cell}.
Arguments set_omega {cell}.
Arguments set_nut {cell}.
Arguments k {cell}.
Arguments omega {cell}.
Arguments epsilon {cell}.

Notation "x <- f ;; g" := (bind f (fun x => g))
  (at level 61, f at next level, right associativity).

(** ** Member functions that the header only declares

    [F1], [F2], [F3], [F23], [betaStar], [correctNut], [correct] and
    [read] have their bodies in [kOmegaSSTLowRe.C]. *)

(** Modelled from the spec: the Bradshaw limiter of [correctNut], whose
    body is missing, for one cell:
    [nut = a1*k / max(a1*omega, b1*F23*S)]. *)
Definition nutLimiter (a1 b1 kc omegac F23c Sc : scalar) : scalar :=
  a1 * kc / Rmax (a1 * omegac) (b1 * F23c * Sc).

(** Modelled from the spec: the clipping of a solved field to its floor,
    which [correct] applies to omega and to k. *)
Definition bound {cell : Type} (f : volScalarField cell)
  (lowerBound : dimensionedScalar) : volScalarField cell :=
  fmax f (uniform lowerBound).

(** What [correct] hands to the linear-solver collaborator: the unknown
    field, a diffusivity and the source and sink fields. *)
Record fvScalarMatrix (cell : Type) : Type := mkEqn {
  unknown : volScalarField cell;
  diffusivity : volScalarField cell;
  production : volScalarField cell;
  destruction : volScalarField cell;
  crossDiffusion : volScalarField cell
}.

Arguments mkEqn {cell}.

(** What the collaborators supply for one call of [correct]: the
    strain-rate magnitude, the product of two gradients, and the solver,
    about which nothing is assumed. *)
Record Collaborators (cell : Type) : Type := mkCollab {
  magS : volScalarField cell;
  gradDot : volScalarField cell -> volScalarField cell -> volScalarField cell;
  solve : fvScalarMatrix cell -> volScalarField cell
}.

Arguments mkCollab {cell}.
Arguments magS {cell}.
Arguments gradDot {cell}.
Arguments solve {cell}.

Section Closure.

Variable cell : Type.

(** The floors of the base class. *)
Variables kMin omegaMin : dimensionedScalar.

(** [F3] and [betaStar] are declared in the header; neither the header
    nor the spec gives their formulas, so they stay parameters. *)
Variable F3 : Model cell -> volScalarField cell.
Variable betaStar : Model cell -> volScalarField cell.

(** Modelled from the spec: the cross-diffusion term given to [F1], the
    positive part of [grad k . grad omega] scaled by [2*sigmaOmega2/omega]. *)
Definition CDkOmega (e : Collaborators cell) (m : Model cell)
  : volScalarField cell :=
  fmax
    (fdiv (fmul (uniform (2 * sigmaOmega2_ (coeffs m)))
                (gradDot e (k_ m) (omega_ m)))
          (omega_ m))
    (uniform 0).

(** Modelled from the spec: [F1], whose body is missing:
    [tanh(arg1^4)] with
    [arg1 = min(max(sqrt k/(betaStarInf*omega*y), 500 nu/(y^2 omega)),
                4 sigmaOmega2 k/(max(CDkOmega, 1e-10) y^2))]. *)
Definition F1 (CDkOmega : volScalarField cell) (m : Model cell)
  : volScalarField cell :=
  fun c =>
    let arg1 :=
      Rmin
        (Rmax
           (sqrt (k_ m c) / (betaStarInf_ (coeffs m) * omega_ m c * y_ m c))
           (500 * nu m c / (sqr (y_ m c) * omega_ m c)))
        (4 * sigmaOmega2_ (coeffs m) * k_ m c
           / (Rmax (CDkOmega c) (1 / 10 ^ 10) * sqr (y_ m c)))
    in tanh (pow4 arg1).

(** Modelled from the spec: [F2], whose body is missing:
    [tanh(arg2^2)] with
    [arg2 = max(2 sqrt k/(betaStarInf*omega*y), 500 nu/(y^2 omega))]. *)
Definition F2 (m : Model cell) : volScalarField cell :=
  fun c =>
    let arg2 :=
      Rmax
        (2 * sqrt (k_ m c) / (betaStarInf_ (coeffs m) * omega_ m c * y_ m c))
        (500 * nu m c / (sqr (y_ m c) * omega_ m c))
    in tanh (sqr arg2).

(** Modelled from the spec: [F23], whose body is missing:
    [max(F2, F3)] when the flag is set, else [F2]. *)
Definition F23 (m : Model cell) : volScalarField cell :=
  if F3_ (coeffs m) then fmax (F2 m) (F3 m) else F2 m.

(** Modelled from the spec: [correctNut], whose body is missing; it
    overwrites the stored [nut_] with the limiter's value. *)
Definition correctNut (e : Collaborators cell) : method cell unit :=
  modify (fun m =>
    set_nut
      (fun c =>
         nutLimiter (a1_ (coeffs m)) (b1_ (coeffs m))
           (k_ m c) (omega_ m c) (F23 m c) (magS e c))
      m).

(** Modelled from the spec: the omega equation of step 2. *)
Definition omegaEqn (e : Collaborators cell) (F1v : volScalarField cell)
  (m : Model cell) : fvScalarMatrix cell :=
  mkEqn (omega_ m)
    (DomegaEff m F1v)
    (fmul (alphaInf (coeffs m) F1v) (fmap sqr (magS e)))
    (fmul (beta (coeffs m) F1v) (fmap sqr (omega_ m)))
    (fdiv
       (fmul (fmul (fsub (uniform 1) F1v)
                   (uniform (2 * sigmaOmega2_ (coeffs m))))
             (gradDot e (k_ m) (omega_ m)))
       (omega_ m)).

(** Modelled from the spec: the k equation of step 3, its production
    capped by [c1*betaStar*k*omega]. *)
Definition kEqn (e : Collaborators cell) (F1v : volScalarField cell)
  (m : Model cell) : fvScalarMatrix cell :=
  mkEqn (k_ m)
    (DkEff m F1v)
    (fmin (fmul (nut_ m) (fmap sqr (magS e)))
          (fmul (fmul (fmul (uniform (c1_ (coeffs m))) (betaStar m)) (k_ m))
                (omega_ m)))
    (fmul (fmul (betaStar m) (k_ m)) (omega_ m))
    (uniform 0).

(** Modelled from the spec: [correct], whose body is missing: F1, the
    omega equation solved and clipped, the k equation solved and
    clipped, then [correctNut]. *)
Definition correct (e : Collaborators cell) : method cell unit :=
  F1v <- gets (fun m => F1 (CDkOmega e m) m) ;;
  _ <- modify (fun m => set_omega (bound (solve e (omegaEqn e F1v m)) omegaMin) m) ;;
  _ <- modify (fun m => set_k (bound (solve e (kEqn e F1v m)) kMin) m) ;;
  correctNut e.

(** A sequence of [correct] calls, one set of collaborator data per call. *)
Definition correctAll (es : list (Collaborators cell)) (m : Model cell)
  : Model cell :=
  List.fold_left (fun m' e => exec (correct e) m') es m.

End Closure.

Arguments CDkOmega {cell} e m _.
Arguments F1 {cell} CDkOmega m _.
Arguments F2 {cell} m _.
Arguments F23 {cell} F3 m _.
Arguments correctNut {cell} F3 e _.
Arguments omegaEqn {cell} e F1v m.
Arguments kEqn {cell} betaStar e F1v m.
Arguments correct {cell} kMin omegaMin F3 betaStar e _.
Arguments correctAll {cell} kMin omegaMin F3 betaStar es m.

(** ** Re-reading the coefficients *)

(** The names under which the coefficients are looked up. *)
Inductive coeffName : Type :=
  | BetaInf | Beta1 | Beta2 | RBeta | RK | ROmega | BetaStarInf
  | AlphaStarInf | Kappa | SigmaOmega1 | SigmaOmega2 | SigmaK1 | SigmaK2
  | AlphaZero | A1 | B1 | C1.

(** The configuration: a value for some of the names, and maybe one for
    the F3 switch. *)
Record dictionary : Type := mkDict {
  lookupScalar : coeffName -> option scalar;
  lookupSwitch : option bool
}.

(** The value held by the model under a name. *)
Definition held (C : Coeffs) (n : coeffName) : dimensionedScalar :=
  match n with
  | BetaInf => betaInf_ C
  | Beta1 => beta1_ C
  | Beta2 => beta2_ C
  | RBeta => RBeta_ C
  | RK => RK_ C
  | ROmega => ROmega_ C
  | BetaStarInf => betaStarInf_ C
  | AlphaStarInf => alphaStarInf_ C
  | Kappa => kappa_ C
  | SigmaOmega1 => sigmaOmega1_ C
  | SigmaOmega2 => sigmaOmega2_ C
  | SigmaK1 => sigmaK1_ C
  | SigmaK2 => sigmaK2_ C
  | AlphaZero => alphaZero_ C
  | A1 => a1_ C
  | B1 => b1_ C
  | C1 => c1_ C
  end.

(** A coefficient keeps its value unless the configuration overrides it. *)
Definition readIfPresent (dict : dictionary) (C : Coeffs) (n : coeffName)
  : dimensionedScalar :=
  match lookupScalar dict n with
  | Some v => v
  | None => held C n
  end.

Definition readSwitch (dict : dictionary) (C : Coeffs) : bool :=
  match lookupSwitch dict with
  | Some b => b
  | None => F3_ C
  end.

Definition reread (dict : dictionary) (C : Coeffs) : Coeffs :=
  mkCoeffs
    (readIfPresent dict C BetaInf) (readIfPresent dict C Beta1)
    (readIfPresent dict C Beta2) (readIfPresent dict C RBeta)
    (readIfPresent dict C RK) (readIfPresent dict C ROmega)
    (readIfPresent dict C BetaStarInf) (readIfPresent dict C AlphaStarInf)
    (readIfPresent dict C Kappa) (readIfPresent dict C SigmaOmega1)
    (readIfPresent dict C SigmaOmega2) (readIfPresent dict C SigmaK1)
    (readIfPresent dict C SigmaK2) (readIfPresent dict C AlphaZero)
    (readIfPresent dict C A1) (readIfPresent dict C B1)
    (readIfPresent dict C C1) (readSwitch dict C).

Definition Coeffs_eq_dec (C C' : Coeffs) : {C = C'} + {C <> C'}.
Proof.
  decide equality; try apply Req_dec_T; apply bool_dec.
Qed.

Definition changed (C C' : Coeffs) : bool :=
  if Coeffs_eq_dec C C' then false else true.

(** Modelled from the spec: [read], whose body is missing: it re-parses
    the coefficient configuration, stores the coefficients and returns
    whether any of them changed. *)
Definition read {cell : Type} (dict : dictionary) : method cell bool :=
  C <- gets coeffs ;;
  _ <- modify (set_coeffs (reread dict C)) ;;
  ret (changed C (reread dict C)).

(** The configuration says nothing new: every entry it has is the value
    the model already holds. *)
Definition unchanged (dict : dictionary) (C : Coeffs) : Prop :=
  (forall n v, lookupScalar dict n = Some v -> v = held C n)
  /\ (forall b, lookupSwitch dict = Some b -> b = F3_ C).

(** ** The omega-production coefficient as the spec words it

    The branch value [gamma_i = beta_i/betaStarInf
    - kappa^2/(sigmaOmega_i*sqrt betaStarInf)], to be compared with what
    [alphaInf] blends. *)
Definition gammaBranch (betai betaStarInf kappa sigmaOmegai : scalar) : scalar :=
  betai / betaStarInf - kappa * kappa / (sigmaOmegai * sqrt betaStarInf).

Definition gamma1 (C : Coeffs) : scalar :=
  gammaBranch (beta1_ C) (betaStarInf_ C) (kappa_ C) (sigmaOmega1_ C).

Definition gamma2 (C : Coeffs) : scalar :=
  gammaBranch (beta2_ C) (betaStarInf_ C) (kappa_ C) (sigmaOmega2_ C).

(** ** Example data

    Coefficient values for the examples below: the documented defaults
    for beta1, beta2, betaStar, a1, b1, c1 and F3, and the usual
    low-Re k-omega values for the coefficients the header does not
    document.  The fields are those of the spec's uniform-flow
    scenario: k = 0.01, omega = 10, y = 0.05, nu = 1.5e-5. *)
Definition exampleCoeffs : Coeffs :=
  mkCoeffs 0.072 0.075 0.0828 8 6 2.95 0.09 1 0.41 2 1.168 1.176 1 (1 / 9)
    0.31 1 10 false.

Definition exampleModel : Model nat :=
  mkModel exampleCoeffs (uniform 0.05) (uniform 0.01) (uniform 10)
    (uniform 0.001) (uniform 0.000015).

(** Collaborators with a solver that returns -1 in every cell. *)
Definition exampleCollab : Collaborators nat :=
  mkCollab (uniform 0) (fun _ _ => uniform 0) (fun _ => uniform (-1)).

(** A configuration that repeats two held values and is silent on the
    rest. *)
Definition exampleDict : dictionary :=
  mkDict (fun n => match n with
                   | Beta1 => Some 0.075
                   | A1 => Some 0.31
                   | _ => None
                   end)
         (Some false).

(** * Properties *)

(** ** The blend operator *)

Section BlendFacts.

Context {cell : Type}.

Implicit Types (C : Coeffs) (c : cell).

Lemma blend_cell (F1 : volScalarField cell) psi1 psi2 c :
  blend F1 psi1 psi2 c = F1 c * (psi1 - psi2) + psi2.
Proof. reflexivity. Qed.

Lemma blend_at_one (F1 : volScalarField cell) psi1 psi2 c : F1 c = 1 -> blend F1 psi1 psi2 c = psi1.
Proof. intros H; rewrite blend_cell, H; ring. Qed.

Lemma blend_at_zero (F1 : volScalarField cell) psi1 psi2 c : F1 c = 0 -> blend F1 psi1 psi2 c = psi2.
Proof. intros H; rewrite blend_cell, H; ring. Qed.

(** The reciprocal of a reciprocal blend is the blend itself. *)
Lemma recip_recip (x : scalar) : 1 / (1 / x) = x.
Proof. unfold Rdiv; rewrite !Rmult_1_l; apply Rinv_inv. Qed.

Lemma sigmaK_cell C (F1 : volScalarField cell) c :
  sigmaK C F1 c = 1 / blend F1 (1 / sigmaK1_ C) (1 / sigmaK2_ C) c.
Proof. reflexivity. Qed.

Lemma sigmaOmega_cell C (F1 : volScalarField cell) c :
  sigmaOmega C F1 c = 1 / blend F1 (1 / sigmaOmega1_ C) (1 / sigmaOmega2_ C) c.
Proof. reflexivity. Qed.

(** A blend of two positive values with a weight in [0,1] is positive. *)
Lemma blend_pos (F1 : volScalarField cell) psi1 psi2 c :
  0 <= F1 c <= 1 -> 0 < psi1 -> 0 < psi2 -> 0 < blend F1 psi1 psi2 c.
Proof.
  intros [H0 H1] Hp1 Hp2; rewrite blend_cell.
  replace (F1 c * (psi1 - psi2) + psi2)
    with (F1 c * psi1 + (1 - F1 c) * psi2) by ring.
  destruct (Rle_lt_or_eq_dec _ _ H0) as [Hlt | Heq].
  - apply Rplus_lt_le_0_compat.
    + apply Rmult_lt_0_compat; assumption.
    + apply Rmult_le_pos; lra.
  - rewrite <- Heq; lra.
Qed.

(** C8: for every F1 and every coefficient value psi, blending psi with
    itself gives psi back, in every cell, where blend is
    [F1*(psi1 - psi2) + psi2]. *)
Theorem blend_degenerate (F1 : volScalarField cell) (psi : dimensionedScalar) c :
  blend F1 psi psi c = psi
  /\ (forall psi1 psi2, blend F1 psi1 psi2 c = F1 c * (psi1 - psi2) + psi2).
Proof.
  split.
  - rewrite blend_cell; ring.
  - intros psi1 psi2; apply blend_cell.
Qed.

(** C4: where F1 is 1 the blended beta, sigmaK and sigmaOmega are the
    k-omega constants beta1, sigmaK1, sigmaOmega1; where F1 is 0 they
    are the k-epsilon constants beta2, sigmaK2, sigmaOmega2.  The sigmas
    go through the reciprocal blend. *)
Theorem blend_endpoints C (F1 : volScalarField cell) :
  ((forall c, F1 c = 1) ->
     forall c, beta C F1 c = beta1_ C
               /\ sigmaK C F1 c = sigmaK1_ C
               /\ sigmaOmega C F1 c = sigmaOmega1_ C)
  /\ ((forall c, F1 c = 0) ->
        forall c, beta C F1 c = beta2_ C
                  /\ sigmaK C F1 c = sigmaK2_ C
                  /\ sigmaOmega C F1 c = sigmaOmega2_ C).
Proof.
  split; intros H c; specialize (H c); unfold beta, betaI;
    rewrite sigmaK_cell, sigmaOmega_cell.
  - rewrite !(blend_at_one _ _ _ _ H), !recip_recip; auto.
  - rewrite !(blend_at_zero _ _ _ _ H), !recip_recip; auto.
Qed.

End BlendFacts.

(** ** Effective diffusivities and the accessors *)

Section DiffusivityFacts.

Context {cell : Type}.

Implicit Types (m : Model cell) (C : Coeffs) (c : cell).

Lemma DkEff_cell m (F1 : volScalarField cell) c :
  DkEff m F1 c = nut_ m c / sigmaK (coeffs m) F1 c + nu m c.
Proof. reflexivity. Qed.

Lemma DomegaEff_cell m (F1 : volScalarField cell) c :
  DomegaEff m F1 c = nut_ m c / sigmaOmega (coeffs m) F1 c + nu m c.
Proof. reflexivity. Qed.

Lemma recip_sigmaK C (F1 : volScalarField cell) c :
  1 / sigmaK C F1 c = blend F1 (1 / sigmaK1_ C) (1 / sigmaK2_ C) c.
Proof. rewrite sigmaK_cell; apply recip_recip. Qed.

Lemma recip_sigmaOmega C (F1 : volScalarField cell) c :
  1 / sigmaOmega C F1 c = blend F1 (1 / sigmaOmega1_ C) (1 / sigmaOmega2_ C) c.
Proof. rewrite sigmaOmega_cell; apply recip_recip. Qed.

(** Dividing by a sigma is multiplying by the blended reciprocal. *)
Lemma div_sigma (x s b : scalar) : 1 / s = b -> x / s = x * b.
Proof. intros <-; unfold Rdiv; ring. Qed.

(** C5: for every F1, DkEff is nut/sigmaK(F1) + nu and DomegaEff is
    nut/sigmaOmega(F1) + nu in every cell, where the sigmas come from
    blending the reciprocals: 1/sigmaK(F1) is
    F1*(1/sigmaK1 - 1/sigmaK2) + 1/sigmaK2 and 1/sigmaOmega(F1) is
    F1*(1/sigmaOmega1 - 1/sigmaOmega2) + 1/sigmaOmega2, so that
    DkEff = nut*(F1*(1/sigmaK1 - 1/sigmaK2) + 1/sigmaK2) + nu and
    DomegaEff likewise. *)
Theorem effective_diffusivities m (F1 : volScalarField cell) c :
  DkEff m F1 c = nut_ m c / sigmaK (coeffs m) F1 c + nu m c
  /\ DomegaEff m F1 c = nut_ m c / sigmaOmega (coeffs m) F1 c + nu m c
  /\ 1 / sigmaK (coeffs m) F1 c
     = F1 c * (1 / sigmaK1_ (coeffs m) - 1 / sigmaK2_ (coeffs m))
       + 1 / sigmaK2_ (coeffs m)
  /\ 1 / sigmaOmega (coeffs m) F1 c
     = F1 c * (1 / sigmaOmega1_ (coeffs m) - 1 / sigmaOmega2_ (coeffs m))
       + 1 / sigmaOmega2_ (coeffs m)
  /\ DkEff m F1 c
     = nut_ m c
       * (F1 c * (1 / sigmaK1_ (coeffs m) - 1 / sigmaK2_ (coeffs m))
          + 1 / sigmaK2_ (coeffs m))
       + nu m c
  /\ DomegaEff m F1 c
     = nut_ m c
       * (F1 c * (1 / sigmaOmega1_ (coeffs m) - 1 / sigmaOmega2_ (coeffs m))
          + 1 / sigmaOmega2_ (coeffs m))
       + nu m c.
Proof.
  pose proof (recip_sigmaK (coeffs m) F1 c) as Rk.
  pose proof (recip_sigmaOmega (coeffs m) F1 c) as Ro.
  rewrite blend_cell in Rk, Ro.
  split; [reflexivity|]; split; [reflexivity|].
  split; [exact Rk|]; split; [exact Ro|]; split.
  - rewrite DkEff_cell, (div_sigma _ _ _ Rk); reflexivity.
  - rewrite DomegaEff_cell, (div_sigma _ _ _ Ro); reflexivity.
Qed.

(** C10: with F1 in [0,1], positive sigma constants, a non-negative
    eddy viscosity and a positive laminar viscosity, neither effective
    diffusivity falls below the laminar viscosity. *)
Theorem diffusivity_at_least_laminar m (F1 : volScalarField cell) c :
  0 <= F1 c <= 1 ->
  0 < sigmaK1_ (coeffs m) -> 0 < sigmaK2_ (coeffs m) ->
  0 < sigmaOmega1_ (coeffs m) -> 0 < sigmaOmega2_ (coeffs m) ->
  0 <= nut_ m c -> 0 < nu m c ->
  nu m c <= DkEff m F1 c /\ nu m c <= DomegaEff m F1 c.
Proof.
  intros HF Hk1 Hk2 Ho1 Ho2 Hnut _.
  assert (Hinv : forall s, 0 < s -> 0 < 1 / s)
    by (intros s Hs; apply Rdiv_lt_0_compat; lra).
  rewrite DkEff_cell, DomegaEff_cell.
  rewrite (div_sigma _ _ _ (recip_sigmaK (coeffs m) F1 c)).
  rewrite (div_sigma _ _ _ (recip_sigmaOmega (coeffs m) F1 c)).
  pose proof (blend_pos F1 _ _ c HF (Hinv _ Hk1) (Hinv _ Hk2)) as Bk.
  pose proof (blend_pos F1 _ _ c HF (Hinv _ Ho1) (Hinv _ Ho2)) as Bo.
  split.
  - pose proof (Rmult_le_pos _ _ Hnut (Rlt_le _ _ Bk)); lra.
  - pose proof (Rmult_le_pos _ _ Hnut (Rlt_le _ _ Bo)); lra.
Qed.

(** C7: [epsilon()] returns the field 0.09*k*omega, cell by cell, and
    hands the model back as it was: k, omega and everything else. *)
Theorem epsilon_reports_and_preserves m :
  (forall c, fst (epsilon m) c = 0.09 * k_ m c * omega_ m c)
  /\ snd (epsilon m) = m.
Proof. split; [intros c|]; reflexivity. Qed.

End DiffusivityFacts.

(** ** The omega-production coefficient *)

Section AlphaInfFacts.

Context {cell : Type}.

Lemma sqrt_betaStar_default : sqrt 0.09 = 0.3.
Proof. apply sqrt_lem_1; lra. Qed.

Lemma Rabs_lt_iff (x e : scalar) : Rabs x < e <-> - e < x < e.
Proof.
  split.
  - intros H; destruct (Rabs_def2 _ _ H); split; assumption.
  - intros [H1 H2]; apply Rabs_def1; assumption.
Qed.

Lemma alphaInf_cell (C : Coeffs) (F1 : volScalarField cell) c :
  alphaInf C F1 c = F1 c * (gamma1 C - gamma2 C) + gamma2 C.
Proof. reflexivity. Qed.

(** With betaStarInf = 0.09 a branch value is within 0.00005 of a
    documented g exactly when kappa^2/sigmaOmega is within 0.000015 of
    0.3*(beta/0.09 - g). *)
Lemma gammaBranch_rounds (betai kappa sigmaOmegai g : scalar) :
  sigmaOmegai <> 0 ->
  Rabs (gammaBranch betai 0.09 kappa sigmaOmegai - g) < 0.00005
  <-> Rabs (kappa * kappa / sigmaOmegai - 0.3 * (betai / 0.09 - g)) < 0.000015.
Proof.
  intros Hs; unfold gammaBranch; rewrite sqrt_betaStar_default.
  replace (kappa * kappa / (sigmaOmegai * 0.3))
    with (kappa * kappa / sigmaOmegai / 0.3) by (field; lra).
  set (t := kappa * kappa / sigmaOmegai).
  rewrite !Rabs_lt_iff; split; intros [H1 H2]; split; lra.
Qed.

(** C6: for every F1, alphaInf(F1) is the generic blend
    F1*(gamma1 - gamma2) + gamma2, the operator beta uses on beta1 and
    beta2, of the branch values gamma_i = beta_i/betaStarInf
    - kappa^2/(sigmaOmega_i*sqrt betaStarInf).  With the documented
    beta1 = 0.075, beta2 = 0.0828 and betaStar = 0.09, alphaInf rounds
    to the documented gamma1 = 0.5532 where F1 is 1 exactly when
    kappa^2/sigmaOmega1 is within 0.000015 of 0.08404, and to
    gamma2 = 0.4403 where F1 is 0 exactly when kappa^2/sigmaOmega2 is
    within 0.000015 of 0.14391; positive coefficients that do both
    exist. *)
Theorem alphaInf_blends_gammas :
  (forall (C : Coeffs) (F1 : volScalarField cell) c,
     alphaInf C F1 c
     = F1 c
       * ((beta1_ C / betaStarInf_ C
             - kappa_ C * kappa_ C
               / (sigmaOmega1_ C * sqrt (betaStarInf_ C)))
          - (beta2_ C / betaStarInf_ C
               - kappa_ C * kappa_ C
                 / (sigmaOmega2_ C * sqrt (betaStarInf_ C))))
       + (beta2_ C / betaStarInf_ C
            - kappa_ C * kappa_ C
              / (sigmaOmega2_ C * sqrt (betaStarInf_ C)))
     /\ beta C F1 c = F1 c * (beta1_ C - beta2_ C) + beta2_ C
     /\ alphaInf C F1 c = blend F1 (gamma1 C) (gamma2 C) c
     /\ beta C F1 c = blend F1 (beta1_ C) (beta2_ C) c)
  /\ (forall (C : Coeffs) (F1 : volScalarField cell) c,
        beta1_ C = 0.075 -> beta2_ C = 0.0828 -> betaStarInf_ C = 0.09 ->
        sigmaOmega1_ C <> 0 -> sigmaOmega2_ C <> 0 ->
        (F1 c = 1 ->
           (Rabs (alphaInf C F1 c - 0.5532) < 0.00005
            <-> Rabs (kappa_ C * kappa_ C / sigmaOmega1_ C - 0.08404)
                < 0.000015))
        /\ (F1 c = 0 ->
              (Rabs (alphaInf C F1 c - 0.4403) < 0.00005
               <-> Rabs (kappa_ C * kappa_ C / sigmaOmega2_ C - 0.14391)
                   < 0.000015)))
  /\ (exists C : Coeffs,
        beta1_ C = 0.075 /\ beta2_ C = 0.0828 /\ betaStarInf_ C = 0.09
        /\ 0 < kappa_ C /\ 0 < sigmaOmega1_ C /\ 0 < sigmaOmega2_ C
        /\ forall (F1 : volScalarField cell) c,
             (F1 c = 1 -> Rabs (alphaInf C F1 c - 0.5532) < 0.00005)
             /\ (F1 c = 0 -> Rabs (alphaInf C F1 c - 0.4403) < 0.00005)).
Proof.
  assert (Rounds : forall (C : Coeffs) (F1 : volScalarField cell) c,
    beta1_ C = 0.075 -> beta2_ C = 0.0828 -> betaStarInf_ C = 0.09 ->
    sigmaOmega1_ C <> 0 -> sigmaOmega2_ C <> 0 ->
    (F1 c = 1 ->
       (Rabs (alphaInf C F1 c - 0.5532) < 0.00005
        <-> Rabs (kappa_ C * kappa_ C / sigmaOmega1_ C - 0.08404) < 0.000015))
    /\ (F1 c = 0 ->
          (Rabs (alphaInf C F1 c - 0.4403) < 0.00005
           <-> Rabs (kappa_ C * kappa_ C / sigmaOmega2_ C - 0.14391)
               < 0.000015))).
  { intros C F1 c Hb1 Hb2 Hs Ho1 Ho2; split; intros HF;
      rewrite alphaInf_cell, HF; unfold gamma1, gamma2; rewrite ?Hb1, ?Hb2, Hs.
    - replace (1 * (gammaBranch 0.075 0.09 (kappa_ C) (sigmaOmega1_ C)
                    - gammaBranch 0.0828 0.09 (kappa_ C) (sigmaOmega2_ C))
               + gammaBranch 0.0828 0.09 (kappa_ C) (sigmaOmega2_ C))
        with (gammaBranch 0.075 0.09 (kappa_ C) (sigmaOmega1_ C)) by ring.
      rewrite (gammaBranch_rounds _ _ _ _ Ho1).
      replace (0.3 * (0.075 / 0.09 - 0.5532)) with 0.08404 by lra.
      reflexivity.
    - replace (0 * (gammaBranch 0.075 0.09 (kappa_ C) (sigmaOmega1_ C)
                    - gammaBranch 0.0828 0.09 (kappa_ C) (sigmaOmega2_ C))
               + gammaBranch 0.0828 0.09 (kappa_ C) (sigmaOmega2_ C))
        with (gammaBranch 0.0828 0.09 (kappa_ C) (sigmaOmega2_ C)) by ring.
      rewrite (gammaBranch_rounds _ _ _ _ Ho2).
      replace (0.3 * (0.0828 / 0.09 - 0.4403)) with 0.14391 by lra.
      reflexivity. }
  split; [|split].
  - intros C F1 c; repeat split.
  - exact Rounds.
  - exists exampleCoeffs.
    split; [reflexivity|]; split; [reflexivity|]; split; [reflexivity|].
    split; [simpl; lra|]; split; [simpl; lra|]; split; [simpl; lra|].
    intros F1 c.
    assert (N1 : sigmaOmega1_ exampleCoeffs <> 0) by (simpl; lra).
    assert (N2 : sigmaOmega2_ exampleCoeffs <> 0) by (simpl; lra).
    destruct (Rounds exampleCoeffs F1 c eq_refl eq_refl eq_refl N1 N2)
      as [R1 R2].
    split; intros HF.
    + apply (R1 HF); simpl; apply Rabs_lt_iff; split; lra.
    + apply (R2 HF); simpl; apply Rabs_lt_iff; split; lra.
Qed.

End AlphaInfFacts.

(** ** The viscosity limiter *)

Section LimiterFacts.

Variables a1 b1 kc omegac F23c Sc : scalar.

Hypothesis k_nonneg : 0 <= kc.
Hypothesis omega_pos : 0 < omegac.
Hypothesis S_nonneg : 0 <= Sc.
Hypothesis F23_range : 0 <= F23c <= 1.
Hypothesis a1_pos : 0 < a1.
Hypothesis b1_pos : 0 < b1.

Lemma limiter_denominator_pos : 0 < Rmax (a1 * omegac) (b1 * F23c * Sc).
Proof.
  apply Rlt_le_trans with (a1 * omegac).
  - apply Rmult_lt_0_compat; assumption.
  - apply Rmax_l.
Qed.

(** Whatever stays below the denominator is capped by [a1*k]. *)
Lemma limiter_cap (x : scalar) :
  x <= Rmax (a1 * omegac) (b1 * F23c * Sc) ->
  nutLimiter a1 b1 kc omegac F23c Sc * x <= a1 * kc.
Proof.
  intros Hx; unfold nutLimiter.
  pose proof limiter_denominator_pos as HM.
  set (M := Rmax (a1 * omegac) (b1 * F23c * Sc)) in *.
  assert (Hak : 0 <= a1 * kc) by (apply Rmult_le_pos; lra).
  replace (a1 * kc / M * x) with (a1 * kc * (x / M)) by (field; lra).
  rewrite <- (Rmult_1_r (a1 * kc)) at 2.
  apply Rmult_le_compat_l; [assumption|].
  apply Rmult_le_reg_r with M; [assumption|].
  replace (x / M * M) with x by (field; lra). lra.
Qed.

(** C1, amended: for k >= 0, omega > 0, S >= 0, F23 in [0,1] and
    positive a1, b1, the limiter's nut = a1*k/max(a1*omega, b1*F23*S)
    satisfies nut*(b1*F23*S) <= a1*k and nut*omega <= k for S of any
    magnitude; nut*S <= a1*k itself holds where b1*F23 >= 1. *)
Theorem bradshaw_cap :
  nutLimiter a1 b1 kc omegac F23c Sc * (b1 * F23c * Sc) <= a1 * kc
  /\ nutLimiter a1 b1 kc omegac F23c Sc * omegac <= kc
  /\ (1 <= b1 * F23c -> nutLimiter a1 b1 kc omegac F23c Sc * Sc <= a1 * kc).
Proof.
  split; [|split].
  - apply limiter_cap, Rmax_r.
  - pose proof (limiter_cap (a1 * omegac) (Rmax_l _ _)) as H.
    apply Rmult_le_reg_l with a1; [assumption|].
    rewrite <- Rmult_assoc, (Rmult_comm a1), Rmult_assoc; exact H.
  - intros Hb; apply limiter_cap.
    apply Rle_trans with (b1 * F23c * Sc); [|apply Rmax_r].
    rewrite <- (Rmult_1_l Sc) at 1.
    apply Rmult_le_compat_r; assumption.
Qed.

End LimiterFacts.

(** C1 as stated fails: with a1 = 0.31, b1 = 1, k = 1, omega = 1,
    F23 = 0.5 and S = 2 the limiter gives nut = 0.31, and nut*S = 0.62
    exceeds a1*k = 0.31. *)
Lemma bradshaw_cap_on_nut_S_fails :
  0 <= 1 /\ 0 < 1 /\ 0 <= 2 /\ 0 <= 0.5 <= 1 /\ 0 < 0.31 /\ 0 < 1
  /\ nutLimiter 0.31 1 1 1 0.5 2 = 0.31
  /\ ~ (nutLimiter 0.31 1 1 1 0.5 2 * 2 <= 0.31 * 1).
Proof.
  assert (E : nutLimiter 0.31 1 1 1 0.5 2 = 0.31).
  { unfold nutLimiter; rewrite Rmax_right by lra; lra. }
  rewrite E; repeat split; lra.
Qed.

(** [correctNut] stores the limiter's value in every cell and touches
    neither k nor omega. *)
Lemma correctNut_cell {cell : Type} F3 e (m : Model cell) :
  (forall c,
     nut_ (exec (correctNut F3 e) m) c
     = nutLimiter (a1_ (coeffs m)) (b1_ (coeffs m)) (k_ m c) (omega_ m c)
         (F23 F3 m c) (magS e c))
  /\ k_ (exec (correctNut F3 e) m) = k_ m
  /\ omega_ (exec (correctNut F3 e) m) = omega_ m.
Proof. repeat split. Qed.

(** ** The blending functions *)

Lemma tanh_range (x : scalar) : 0 <= x -> 0 <= tanh x <= 1.
Proof.
  intros Hx; unfold tanh, sinh, cosh.
  pose proof (exp_pos x) as Hp; pose proof (exp_pos (- x)) as Hn.
  assert (Hle : exp (- x) <= exp x).
  { destruct (Rle_lt_or_eq_dec _ _ Hx) as [Hlt | <-].
    - left; apply exp_increasing; lra.
    - rewrite Ropp_0; lra. }
  assert (Hc : 0 < (exp x + exp (- x)) / 2) by lra.
  split.
  - apply Rmult_le_reg_r with ((exp x + exp (- x)) / 2); [assumption|].
    unfold Rdiv at 2; rewrite Rmult_assoc, Rinv_l by lra; lra.
  - apply Rmult_le_reg_r with ((exp x + exp (- x)) / 2); [assumption|].
    unfold Rdiv at 1; rewrite Rmult_assoc, Rinv_l by lra; lra.
Qed.

Lemma sqr_nonneg (x : scalar) : 0 <= sqr x.
Proof. unfold sqr; nra. Qed.

Lemma pow4_nonneg (x : scalar) : 0 <= pow4 x.
Proof. unfold pow4; apply sqr_nonneg. Qed.

Section BlendingFunctionFacts.

Context {cell : Type}.

(** The spec's F1 and F2 are tanh of an even power, hence in [0,1]
    whatever the fields hold. *)
Lemma F1_range (CDkOmega : volScalarField cell) (m : Model cell) c :
  0 <= F1 CDkOmega m c <= 1.
Proof. unfold F1; apply tanh_range, pow4_nonneg. Qed.

Lemma F2_range (m : Model cell) c : 0 <= F2 m c <= 1.
Proof. unfold F2; apply tanh_range, sqr_nonneg. Qed.

(** With the rough-wall switch off, F23 is F2. *)
Lemma F23_range_switch_off F3 (m : Model cell) c :
  F3_ (coeffs m) = false -> 0 <= F23 F3 m c <= 1.
Proof. intros H; unfold F23; rewrite H; apply F2_range. Qed.

End BlendingFunctionFacts.

(** ** One call of [correct] and sequences of calls *)

Section CorrectFacts.

Context {cell : Type}.

Variables kMin omegaMin : scalar.
Variable F3 : Model cell -> volScalarField cell.
Variable betaStar : Model cell -> volScalarField cell.

Hypothesis kMin_nonneg : 0 <= kMin.
Hypothesis omegaMin_pos : 0 < omegaMin.

Local Abbreviation correct' := (correct kMin omegaMin F3 betaStar).
Local Abbreviation correctAll' := (correctAll kMin omegaMin F3 betaStar).

Lemma bound_floor (f : volScalarField cell) (lowerBound : scalar) c :
  lowerBound <= bound f lowerBound c.
Proof. unfold bound, fmax, uniform; apply Rmax_r. Qed.

(** The stored omega is the clipped solution of the omega equation. *)
Lemma correct_omega e (m : Model cell) :
  omega_ (exec (correct' e) m)
  = bound (solve e (omegaEqn e (F1 (CDkOmega e m) m) m)) omegaMin.
Proof. reflexivity. Qed.

(** The stored k is the clipped solution of the k equation, which is
    assembled after omega has been stored. *)
Lemma correct_k e (m : Model cell) :
  exists m', k_ (exec (correct' e) m)
             = bound (solve e (kEqn betaStar e (F1 (CDkOmega e m) m) m')) kMin
             /\ omega_ m' = omega_ (exec (correct' e) m).
Proof. eexists; split; reflexivity. Qed.

Lemma correct_floors e (m : Model cell) c :
  kMin <= k_ (exec (correct' e) m) c
  /\ omegaMin <= omega_ (exec (correct' e) m) c.
Proof.
  split.
  - destruct (correct_k e m) as [m' [-> _]]; apply bound_floor.
  - rewrite correct_omega; apply bound_floor.
Qed.

Lemma correctAll_snoc es e (m : Model cell) :
  correctAll' (es ++ cons e nil) m = exec (correct' e) (correctAll' es m).
Proof. unfold correctAll; rewrite List.fold_left_app; reflexivity. Qed.

(** C2: with a non-negative floor for k and a positive floor for omega,
    after one call of [correct], and after any non-empty sequence of
    calls from any initial fields and whatever the solver returns, the
    stored k is non-negative and the stored omega is positive in every
    cell. *)
Theorem correct_keeps_k_omega_physical :
  (forall e (m : Model cell) c,
     0 <= k_ (exec (correct' e) m) c /\ 0 < omega_ (exec (correct' e) m) c)
  /\ (forall es (m : Model cell) c,
        es <> nil ->
        0 <= k_ (correctAll' es m) c /\ 0 < omega_ (correctAll' es m) c).
Proof.
  assert (One : forall e (m : Model cell) c,
    0 <= k_ (exec (correct' e) m) c /\ 0 < omega_ (exec (correct' e) m) c).
  { intros e m c; destruct (correct_floors e m c); split; lra. }
  split; [exact One|].
  intros es m c Hne.
  destruct (List.exists_last Hne) as [es' [e ->]].
  rewrite correctAll_snoc; apply One.
Qed.

End CorrectFacts.

(** ** Re-reading the coefficients *)

Section ReadFacts.

Context {cell : Type}.

Lemma held_reread dict C n : held (reread dict C) n = readIfPresent dict C n.
Proof. destruct n; reflexivity. Qed.

Lemma readIfPresent_unchanged dict C n :
  unchanged dict C -> readIfPresent dict C n = held C n.
Proof.
  intros [Hs _]; unfold readIfPresent.
  specialize (Hs n).
  destruct (lookupScalar dict n) as [v|]; [apply Hs | ]; reflexivity.
Qed.

Lemma readSwitch_unchanged dict C :
  unchanged dict C -> readSwitch dict C = F3_ C.
Proof.
  intros [_ Hb]; unfold readSwitch.
  destruct (lookupSwitch dict) as [b|]; [apply Hb | ]; reflexivity.
Qed.

Lemma reread_unchanged dict C : unchanged dict C -> reread dict C = C.
Proof.
  intros H; unfold reread.
  rewrite !(readIfPresent_unchanged _ _ _ H), (readSwitch_unchanged _ _ H).
  destruct C; reflexivity.
Qed.

(** Re-reading a configuration that has just been read changes nothing. *)
Lemma reread_idempotent dict C : reread dict (reread dict C) = reread dict C.
Proof.
  apply reread_unchanged; split.
  - intros n v E; rewrite held_reread; unfold readIfPresent; rewrite E;
      reflexivity.
  - intros b E; simpl; unfold readSwitch; rewrite E; reflexivity.
Qed.

Lemma changed_same C : changed C C = false.
Proof. unfold changed; destruct (Coeffs_eq_dec C C); congruence. Qed.

Lemma changed_true C C' : changed C C' = true <-> C <> C'.
Proof.
  unfold changed; destruct (Coeffs_eq_dec C C'); split; congruence.
Qed.

Lemma read_cell dict (m : Model cell) :
  read dict m
  = (changed (coeffs m) (reread dict (coeffs m)),
     set_coeffs (reread dict (coeffs m)) m).
Proof. reflexivity. Qed.

Lemma set_coeffs_same (m : Model cell) : set_coeffs (coeffs m) m = m.
Proof. destruct m; reflexivity. Qed.

(** C9: [read] only re-parses the coefficients and returns whether any
    changed: the k, omega and nut fields are the same after it in every
    case; when the configuration says nothing new it returns false and
    the model, coefficients included, is as before; reading the same
    configuration a second time is such a case. *)
Theorem read_frame dict (m : Model cell) :
  (k_ (exec (read dict) m) = k_ m
   /\ omega_ (exec (read dict) m) = omega_ m
   /\ nut_ (exec (read dict) m) = nut_ m)
  /\ (fst (read dict m) = true <-> coeffs (exec (read dict) m) <> coeffs m)
  /\ (unchanged dict (coeffs m) -> read dict m = (false, m))
  /\ read dict (exec (read dict) m) = (false, exec (read dict) m).
Proof.
  split; [repeat split|split; [|split]].
  - rewrite read_cell; simpl; rewrite changed_true.
    split; intros H E; apply H; symmetry; exact E.
  - intros H; rewrite read_cell, (reread_unchanged _ _ H), changed_same,
      set_coeffs_same; reflexivity.
  - unfold exec; rewrite !read_cell; simpl.
    rewrite reread_idempotent, changed_same; reflexivity.
Qed.

End ReadFacts.

(** ** The theorems at the example data *)

Lemma blend_endpoints_witness :
  (forall c : nat, uniform 1 c = 1)
  /\ (forall c : nat,
        beta exampleCoeffs (uniform 1) c = 0.075
        /\ sigmaK exampleCoeffs (uniform 1) c = 1.176
        /\ sigmaOmega exampleCoeffs (uniform 1) c = 2)
  /\ (forall c : nat, uniform 0 c = 0)
  /\ (forall c : nat,
        beta exampleCoeffs (uniform 0) c = 0.0828
        /\ sigmaK exampleCoeffs (uniform 0) c = 1
        /\ sigmaOmega exampleCoeffs (uniform 0) c = 1.168).
Proof.
  split; [reflexivity|]; split.
  - exact (proj1 (blend_endpoints exampleCoeffs (uniform 1)) (fun _ => eq_refl)).
  - split; [reflexivity|].
    exact (proj2 (blend_endpoints exampleCoeffs (uniform 0)) (fun _ => eq_refl)).
Defined.

Lemma diffusivity_at_least_laminar_witness :
  (0 <= 0.5 <= 1 /\ 0 < 1.176 /\ 0 < 1 /\ 0 < 2 /\ 0 < 1.168
   /\ 0 <= 0.001 /\ 0 < 0.000015)
  /\ 0.000015 <= DkEff exampleModel (uniform 0.5) 0%nat
  /\ 0.000015 <= DomegaEff exampleModel (uniform 0.5) 0%nat.
Proof.
  assert (H : 0 <= 0.5 <= 1 /\ 0 < 1.176 /\ 0 < 1 /\ 0 < 2 /\ 0 < 1.168
              /\ 0 <= 0.001 /\ 0 < 0.000015) by lra.
  split; [exact H|].
  destruct H as (HF & Hk1 & Hk2 & Ho1 & Ho2 & Hnut & Hnu).
  exact (diffusivity_at_least_laminar exampleModel (uniform 0.5) 0%nat
           HF Hk1 Hk2 Ho1 Ho2 Hnut Hnu).
Defined.

Lemma alphaInf_blends_gammas_witness :
  (beta1_ exampleCoeffs = 0.075 /\ beta2_ exampleCoeffs = 0.0828
   /\ betaStarInf_ exampleCoeffs = 0.09
   /\ sigmaOmega1_ exampleCoeffs <> 0 /\ sigmaOmega2_ exampleCoeffs <> 0
   /\ (uniform 1 : volScalarField nat) 0%nat = 1
   /\ Rabs (0.41 * 0.41 / 2 - 0.08404) < 0.000015)
  /\ Rabs (alphaInf exampleCoeffs (uniform 1) 0%nat - 0.5532) < 0.00005.
Proof.
  assert (N1 : sigmaOmega1_ exampleCoeffs <> 0) by (simpl; lra).
  assert (N2 : sigmaOmega2_ exampleCoeffs <> 0) by (simpl; lra).
  assert (K : Rabs (0.41 * 0.41 / 2 - 0.08404) < 0.000015)
    by (apply Rabs_def1; lra).
  split; [repeat split; assumption|].
  exact (proj2 (proj1 (proj1 (proj2 (@alphaInf_blends_gammas nat))
                         exampleCoeffs (uniform 1) 0%nat
                         eq_refl eq_refl eq_refl N1 N2) eq_refl) K).
Defined.

Lemma bradshaw_cap_witness :
  (0 <= 1 /\ 0 < 1 /\ 0 <= 2 /\ 0 < 0.31 /\ 1 <= 1 * 1)
  /\ nutLimiter 0.31 1 1 1 1 2 * (1 * 1 * 2) <= 0.31 * 1
  /\ nutLimiter 0.31 1 1 1 1 2 * 1 <= 1
  /\ nutLimiter 0.31 1 1 1 1 2 * 2 <= 0.31 * 1.
Proof.
  assert (H : 0 <= 1 /\ 0 < 1 /\ 0 <= 2 /\ 0 < 0.31 /\ 1 <= 1 * 1) by lra.
  split; [exact H|].
  destruct H as (Hk & Ho & HS & Ha & Hb).
  destruct (bradshaw_cap 0.31 1 1 1 1 2 Hk Ho HS Ha) as (H1 & H2 & H3).
  exact (conj H1 (conj H2 (H3 Hb))).
Defined.

Lemma correct_keeps_k_omega_physical_witness :
  (0 <= 0.0000000001 /\ 0 < 0.0000000001
   /\ cons exampleCollab (cons exampleCollab nil) <> nil)
  /\ 0 <= k_ (correctAll 0.0000000001 0.0000000001
                (fun _ => uniform 0) (fun _ => uniform 0.09)
                (cons exampleCollab (cons exampleCollab nil)) exampleModel) 0%nat
  /\ 0 < omega_ (correctAll 0.0000000001 0.0000000001
                   (fun _ => uniform 0) (fun _ => uniform 0.09)
                   (cons exampleCollab (cons exampleCollab nil)) exampleModel) 0%nat.
Proof.
  assert (H : 0 <= 0.0000000001 /\ 0 < 0.0000000001) by lra.
  assert (Hne : cons exampleCollab (cons exampleCollab nil) <> nil) by discriminate.
  split; [exact (conj (proj1 H) (conj (proj2 H) Hne))|].
  exact (proj2 (correct_keeps_k_omega_physical 0.0000000001 0.0000000001
                  (fun _ => uniform 0) (fun _ => uniform 0.09)
                  (proj1 H) (proj2 H))
           (cons exampleCollab (cons exampleCollab nil)) exampleModel 0%nat Hne).
Defined.

Lemma read_frame_witness :
  unchanged exampleDict (coeffs exampleModel)
  /\ read exampleDict exampleModel = (false, exampleModel).
Proof.
  assert (H : unchanged exampleDict (coeffs exampleModel)).
  { split.
    - intros n v E; destruct n; simpl in E; try discriminate;
        injection E as <-; reflexivity.
    - intros b E; injection E as <-; reflexivity. }
  split; [exact H|].
  exact (proj1 (proj2 (proj2 (read_frame exampleDict exampleModel))) H).
Defined.

(** * Further properties of the header's functions *)

(** ** [blend] as a weighted mean *)

Section BlendMore.

Context {cell : Type}.

Implicit Types (C : Coeffs) (c : cell).

Lemma blend_weights (F1 : volScalarField cell) psi1 psi2 c :
  blend F1 psi1 psi2 c = F1 c * psi1 + (1 - F1 c) * psi2.
Proof. rewrite blend_cell; ring. Qed.

Lemma weighted_mean_between (w p q : scalar) :
  0 <= w <= 1 -> Rmin p q <= w * p + (1 - w) * q <= Rmax p q.
Proof.
  intros [H0 H1].
  unfold Rmin, Rmax; destruct (Rle_dec p q) as [Hle | Hgt]; split; nra.
Qed.

(** X1: with the weight F1 in [0,1], the blend of two coefficient
    values lies between the smaller and the larger of them. *)
Theorem blend_between (F1 : volScalarField cell) psi1 psi2 c :
  0 <= F1 c <= 1 ->
  Rmin psi1 psi2 <= blend F1 psi1 psi2 c <= Rmax psi1 psi2.
Proof.
  intros H; rewrite blend_weights; apply weighted_mean_between; exact H.
Qed.

(** X2: swapping the two coefficient values and replacing F1 by 1 - F1
    gives the same blend. *)
Theorem blend_swap (F1 : volScalarField cell) psi1 psi2 c :
  blend (fsub (uniform 1) F1) psi2 psi1 c = blend F1 psi1 psi2 c.
Proof. rewrite !blend_cell; unfold fsub, uniform; ring. Qed.

(** X3: the blend moves with F1 in the direction of psi1 - psi2: it
    grows with F1 when psi2 <= psi1 and falls when psi1 <= psi2. *)
Theorem blend_monotone (F G : volScalarField cell) psi1 psi2 c :
  F c <= G c ->
  (psi2 <= psi1 -> blend F psi1 psi2 c <= blend G psi1 psi2 c)
  /\ (psi1 <= psi2 -> blend G psi1 psi2 c <= blend F psi1 psi2 c).
Proof. intros H; rewrite !blend_cell; split; intros Hp; nra. Qed.

(** X4: where the two coefficient values differ, F1 is recovered from
    the blend: F1 = (blend - psi2)/(psi1 - psi2); so two weights that
    give the same blend are equal there. *)
Theorem blend_recovers_weight (F G : volScalarField cell) psi1 psi2 c :
  psi1 <> psi2 ->
  F c = (blend F psi1 psi2 c - psi2) / (psi1 - psi2)
  /\ (blend F psi1 psi2 c = blend G psi1 psi2 c -> F c = G c).
Proof.
  intros Hne; assert (Hd : psi1 - psi2 <> 0) by lra.
  rewrite !blend_cell; split.
  - field; exact Hd.
  - intros E; apply Rmult_eq_reg_r with (psi1 - psi2); [lra | exact Hd].
Qed.

(** X5: for F1 in [0,1], [beta] stays between beta1 and beta2 and
    [alphaInf] between its two branch values. *)
Theorem beta_alphaInf_between C (F1 : volScalarField cell) c :
  0 <= F1 c <= 1 ->
  Rmin (beta1_ C) (beta2_ C) <= beta C F1 c <= Rmax (beta1_ C) (beta2_ C)
  /\ Rmin (gamma1 C) (gamma2 C) <= alphaInf C F1 c
     <= Rmax (gamma1 C) (gamma2 C).
Proof.
  intros H; unfold beta, betaI, alphaInf; fold (gamma1 C) (gamma2 C).
  rewrite !blend_weights; split; apply weighted_mean_between; exact H.
Qed.

End BlendMore.

(** ** The blended sigmas *)

Section HarmonicMean.

(** The reciprocal of a weighted mean of reciprocals. *)
Variables w a b : scalar.

Hypothesis w_range : 0 <= w <= 1.
Hypothesis a_pos : 0 < a.
Hypothesis b_pos : 0 < b.

Let d : scalar := w * (1 / a - 1 / b) + 1 / b.

Lemma recip_mean_weights : d = (w * b + (1 - w) * a) / (a * b).
Proof. unfold d; field; lra. Qed.

Lemma recip_mean_pos : 0 < d.
Proof.
  rewrite recip_mean_weights; apply Rdiv_lt_0_compat; [|nra].
  destruct w_range as [H0 H1]; nra.
Qed.

Lemma harmonic_value : 1 / d = a * b / (w * b + (1 - w) * a).
Proof.
  rewrite recip_mean_weights; field.
  destruct w_range as [H0 H1]; split; [|split]; nra.
Qed.

Lemma harmonic_between : Rmin a b <= 1 / d <= Rmax a b.
Proof.
  destruct w_range as [H0 H1].
  assert (Hs : 0 < w * b + (1 - w) * a) by nra.
  rewrite harmonic_value.
  assert (Step : forall x, x * (w * b + (1 - w) * a) <= a * b ->
                           x <= a * b / (w * b + (1 - w) * a)).
  { intros x Hx; apply Rmult_le_reg_r with (w * b + (1 - w) * a); [exact Hs|].
    unfold Rdiv; rewrite Rmult_assoc, Rinv_l, Rmult_1_r by lra; exact Hx. }
  assert (Step' : forall x, a * b <= x * (w * b + (1 - w) * a) ->
                            a * b / (w * b + (1 - w) * a) <= x).
  { intros x Hx; apply Rmult_le_reg_r with (w * b + (1 - w) * a); [exact Hs|].
    unfold Rdiv; rewrite Rmult_assoc, Rinv_l, Rmult_1_r by lra; exact Hx. }
  unfold Rmin, Rmax; destruct (Rle_dec a b) as [Hle | Hgt]; split.
  - apply Step; assert (0 <= (1 - w) * (b - a)) by nra; nra.
  - apply Step'; assert (0 <= w * (b - a)) by nra; nra.
  - apply Step; assert (0 <= w * (a - b)) by nra; nra.
  - apply Step'; assert (0 <= (1 - w) * (a - b)) by nra; nra.
Qed.

Lemma harmonic_le_arithmetic : 1 / d <= w * (a - b) + b.
Proof.
  destruct w_range as [H0 H1].
  assert (Hs : 0 < w * b + (1 - w) * a) by nra.
  rewrite harmonic_value.
  apply Rmult_le_reg_r with (w * b + (1 - w) * a); [exact Hs|].
  unfold Rdiv; rewrite Rmult_assoc, Rinv_l, Rmult_1_r by lra.
  assert (Hsq : 0 <= w * (1 - w) * ((a - b) * (a - b))).
  { apply Rmult_le_pos; [nra | exact (Rle_0_sqr (a - b))]. }
  replace ((w * (a - b) + b) * (w * b + (1 - w) * a))
    with (a * b + w * (1 - w) * ((a - b) * (a - b))) by ring.
  lra.
Qed.

End HarmonicMean.

Section SigmaMore.

Context {cell : Type}.

Implicit Types (C : Coeffs) (c : cell).

(** X6: for F1 in [0,1] and positive sigma constants, sigmaK(F1) lies
    between sigmaK1 and sigmaK2 and sigmaOmega(F1) between sigmaOmega1
    and sigmaOmega2; both are positive. *)
Theorem sigma_between C (F1 : volScalarField cell) c :
  0 <= F1 c <= 1 ->
  0 < sigmaK1_ C -> 0 < sigmaK2_ C ->
  0 < sigmaOmega1_ C -> 0 < sigmaOmega2_ C ->
  (Rmin (sigmaK1_ C) (sigmaK2_ C) <= sigmaK C F1 c
     <= Rmax (sigmaK1_ C) (sigmaK2_ C))
  /\ (Rmin (sigmaOmega1_ C) (sigmaOmega2_ C) <= sigmaOmega C F1 c
        <= Rmax (sigmaOmega1_ C) (sigmaOmega2_ C))
  /\ 0 < sigmaK C F1 c /\ 0 < sigmaOmega C F1 c.
Proof.
  intros HF Hk1 Hk2 Ho1 Ho2.
  pose proof (harmonic_between (F1 c) _ _ HF Hk1 Hk2) as Bk.
  pose proof (harmonic_between (F1 c) _ _ HF Ho1 Ho2) as Bo.
  rewrite sigmaK_cell, sigmaOmega_cell, !blend_cell.
  split; [exact Bk|]; split; [exact Bo|]; split.
  - apply Rlt_le_trans with (Rmin (sigmaK1_ C) (sigmaK2_ C)); [|apply Bk].
    apply Rmin_glb_lt; assumption.
  - apply Rlt_le_trans with (Rmin (sigmaOmega1_ C) (sigmaOmega2_ C));
      [|apply Bo].
    apply Rmin_glb_lt; assumption.
Qed.

(** X7: blending the reciprocals never gives more than blending the
    sigmas themselves: for F1 in [0,1] and positive constants,
    sigmaK(F1) <= blend(F1, sigmaK1, sigmaK2), and likewise for
    sigmaOmega. *)
Theorem sigma_below_linear_blend C (F1 : volScalarField cell) c :
  0 <= F1 c <= 1 ->
  0 < sigmaK1_ C -> 0 < sigmaK2_ C ->
  0 < sigmaOmega1_ C -> 0 < sigmaOmega2_ C ->
  sigmaK C F1 c <= blend F1 (sigmaK1_ C) (sigmaK2_ C) c
  /\ sigmaOmega C F1 c <= blend F1 (sigmaOmega1_ C) (sigmaOmega2_ C) c.
Proof.
  intros HF Hk1 Hk2 Ho1 Ho2.
  rewrite sigmaK_cell, sigmaOmega_cell, !blend_cell; split.
  - apply harmonic_le_arithmetic; assumption.
  - apply harmonic_le_arithmetic; assumption.
Qed.

End SigmaMore.

(** ** The effective diffusivities, continued *)

Section DiffusivityMore.

Context {cell : Type}.

Implicit Types (m : Model cell) (C : Coeffs) (c : cell).

Lemma DkEff_product m (F1 : volScalarField cell) c :
  DkEff m F1 c
  = nut_ m c * blend F1 (1 / sigmaK1_ (coeffs m)) (1 / sigmaK2_ (coeffs m)) c
    + nu m c.
Proof.
  rewrite DkEff_cell, (div_sigma _ _ _ (recip_sigmaK (coeffs m) F1 c));
    reflexivity.
Qed.

Lemma DomegaEff_product m (F1 : volScalarField cell) c :
  DomegaEff m F1 c
  = nut_ m c
    * blend F1 (1 / sigmaOmega1_ (coeffs m)) (1 / sigmaOmega2_ (coeffs m)) c
    + nu m c.
Proof.
  rewrite DomegaEff_cell,
    (div_sigma _ _ _ (recip_sigmaOmega (coeffs m) F1 c)); reflexivity.
Qed.

(** X8: for positive sigma constants, each effective diffusivity is
    the F1-weighted mean of the diffusivities of the two branch models,
    nut/sigma1 + nu and nut/sigma2 + nu. *)
Theorem diffusivity_blends_branches m (F1 : volScalarField cell) c :
  0 < sigmaK1_ (coeffs m) -> 0 < sigmaK2_ (coeffs m) ->
  0 < sigmaOmega1_ (coeffs m) -> 0 < sigmaOmega2_ (coeffs m) ->
  DkEff m F1 c
  = F1 c * (nut_ m c / sigmaK1_ (coeffs m) + nu m c)
    + (1 - F1 c) * (nut_ m c / sigmaK2_ (coeffs m) + nu m c)
  /\ DomegaEff m F1 c
     = F1 c * (nut_ m c / sigmaOmega1_ (coeffs m) + nu m c)
       + (1 - F1 c) * (nut_ m c / sigmaOmega2_ (coeffs m) + nu m c).
Proof.
  intros Hk1 Hk2 Ho1 Ho2.
  rewrite DkEff_product, DomegaEff_product, !blend_cell; split; field; lra.
Qed.

(** X9: where the eddy viscosity is zero both effective diffusivities
    are the laminar viscosity, and at fixed F1 (in [0,1], with positive
    sigma constants) a larger eddy viscosity gives a larger DkEff and
    DomegaEff. *)
Theorem diffusivity_grows_with_nut m (F1 f : volScalarField cell) c :
  0 <= F1 c <= 1 ->
  0 < sigmaK1_ (coeffs m) -> 0 < sigmaK2_ (coeffs m) ->
  0 < sigmaOmega1_ (coeffs m) -> 0 < sigmaOmega2_ (coeffs m) ->
  (nut_ m c = 0 -> DkEff m F1 c = nu m c /\ DomegaEff m F1 c = nu m c)
  /\ (nut_ m c <= f c ->
      DkEff m F1 c <= DkEff (set_nut f m) F1 c
      /\ DomegaEff m F1 c <= DomegaEff (set_nut f m) F1 c).
Proof.
  intros HF Hk1 Hk2 Ho1 Ho2.
  assert (Hinv : forall s, 0 < s -> 0 < 1 / s)
    by (intros s Hs; apply Rdiv_lt_0_compat; lra).
  pose proof (blend_pos F1 _ _ c HF (Hinv _ Hk1) (Hinv _ Hk2)) as Bk.
  pose proof (blend_pos F1 _ _ c HF (Hinv _ Ho1) (Hinv _ Ho2)) as Bo.
  rewrite !DkEff_product, !DomegaEff_product; simpl; split.
  - intros ->; split; ring.
  - intros Hle; split.
    + apply Rplus_le_compat_r, Rmult_le_compat_r; [lra | exact Hle].
    + apply Rplus_le_compat_r, Rmult_le_compat_r; [lra | exact Hle].
Qed.

(** X10: for F1 in [0,1], positive sigma constants and a non-negative
    eddy viscosity, DkEff lies between nu + nut/max(sigmaK1, sigmaK2)
    and nu + nut/min(sigmaK1, sigmaK2), and DomegaEff likewise. *)
Theorem diffusivity_bounds m (F1 : volScalarField cell) c :
  0 <= F1 c <= 1 ->
  0 < sigmaK1_ (coeffs m) -> 0 < sigmaK2_ (coeffs m) ->
  0 < sigmaOmega1_ (coeffs m) -> 0 < sigmaOmega2_ (coeffs m) ->
  0 <= nut_ m c ->
  (nut_ m c / Rmax (sigmaK1_ (coeffs m)) (sigmaK2_ (coeffs m)) + nu m c
     <= DkEff m F1 c
     <= nut_ m c / Rmin (sigmaK1_ (coeffs m)) (sigmaK2_ (coeffs m)) + nu m c)
  /\ (nut_ m c / Rmax (sigmaOmega1_ (coeffs m)) (sigmaOmega2_ (coeffs m))
        + nu m c
        <= DomegaEff m F1 c
        <= nut_ m c / Rmin (sigmaOmega1_ (coeffs m)) (sigmaOmega2_ (coeffs m))
           + nu m c).
Proof.
  intros HF Hk1 Hk2 Ho1 Ho2 Hnut.
  pose proof (harmonic_between (F1 c) _ _ HF Hk1 Hk2) as Bk.
  pose proof (harmonic_between (F1 c) _ _ HF Ho1 Ho2) as Bo.
  cbv zeta in Bk, Bo.
  rewrite <- (blend_cell F1), <- sigmaK_cell in Bk.
  rewrite <- (blend_cell F1), <- sigmaOmega_cell in Bo.
  assert (Div : forall lo s hi, 0 < lo -> lo <= s <= hi ->
            nut_ m c / hi <= nut_ m c / s <= nut_ m c / lo).
  { intros lo s hi Hlo [H1 H2]; unfold Rdiv; split;
      apply Rmult_le_compat_l; try exact Hnut;
      apply Rinv_le_contravar; lra. }
  rewrite DkEff_cell, DomegaEff_cell; split.
  - destruct (Div _ _ _ (Rmin_glb_lt _ _ _ Hk1 Hk2) Bk); split; lra.
  - destruct (Div _ _ _ (Rmin_glb_lt _ _ _ Ho1 Ho2) Bo); split; lra.
Qed.

(** X11: when each sigmaK constant is at most the sigmaOmega constant
    of the same branch, omega never diffuses faster than k:
    DomegaEff <= DkEff, for F1 in [0,1], positive constants and a
    non-negative eddy viscosity. *)
Theorem DomegaEff_le_DkEff m (F1 : volScalarField cell) c :
  0 <= F1 c <= 1 ->
  0 < sigmaK1_ (coeffs m) -> 0 < sigmaK2_ (coeffs m) ->
  sigmaK1_ (coeffs m) <= sigmaOmega1_ (coeffs m) ->
  sigmaK2_ (coeffs m) <= sigmaOmega2_ (coeffs m) ->
  0 <= nut_ m c ->
  DomegaEff m F1 c <= DkEff m F1 c.
Proof.
  intros [H0 H1] Hk1 Hk2 H1le H2le Hnut.
  rewrite DkEff_product, DomegaEff_product, !blend_weights.
  assert (I1 : 1 / sigmaOmega1_ (coeffs m) <= 1 / sigmaK1_ (coeffs m))
    by (unfold Rdiv; rewrite !Rmult_1_l; apply Rinv_le_contravar; lra).
  assert (I2 : 1 / sigmaOmega2_ (coeffs m) <= 1 / sigmaK2_ (coeffs m))
    by (unfold Rdiv; rewrite !Rmult_1_l; apply Rinv_le_contravar; lra).
  apply Rplus_le_compat_r, Rmult_le_compat_l; [exact Hnut|].
  apply Rplus_le_compat; apply Rmult_le_compat_l; lra.
Qed.

End DiffusivityMore.

(** ** [alphaInf] against [beta] and [sigmaOmega] *)

Section AlphaInfMore.

Context {cell : Type}.

(** X12: the blended coefficients satisfy the relation their branch
    values satisfy: for F1 in [0,1], positive sigmaOmega constants and
    positive betaStarInf,
    alphaInf(F1) = beta(F1)/betaStarInf
                   - kappa^2/(sigmaOmega(F1)*sqrt betaStarInf). *)
Theorem alphaInf_relation (C : Coeffs) (F1 : volScalarField cell) c :
  0 <= F1 c <= 1 ->
  0 < sigmaOmega1_ C -> 0 < sigmaOmega2_ C -> 0 < betaStarInf_ C ->
  alphaInf C F1 c
  = beta C F1 c / betaStarInf_ C
    - sqr (kappa_ C) / (sigmaOmega C F1 c * sqrt (betaStarInf_ C)).
Proof.
  intros HF Ho1 Ho2 Hb.
  assert (Hinv : forall s, 0 < s -> 0 < 1 / s)
    by (intros s Hs; apply Rdiv_lt_0_compat; lra).
  pose proof (blend_pos F1 _ _ c HF (Hinv _ Ho1) (Hinv _ Ho2)) as Bo.
  pose proof (sqrt_lt_R0 _ Hb) as Hs.
  rewrite sigmaOmega_cell.
  set (b := blend F1 (1 / sigmaOmega1_ C) (1 / sigmaOmega2_ C) c) in *.
  replace (sqr (kappa_ C) / (1 / b * sqrt (betaStarInf_ C)))
    with (sqr (kappa_ C) * b / sqrt (betaStarInf_ C)) by (field; lra).
  unfold b, alphaInf, beta, betaI; rewrite !blend_cell; field; lra.
Qed.

End AlphaInfMore.

(** ** [epsilon], continued *)

Section EpsilonMore.

Context {cell : Type}.

Implicit Types (m : Model cell) (C : Coeffs) (c : cell).

(** X13: [epsilon] does not look at the model coefficients: replacing
    them leaves its result as it was, and in a cell the result equals
    betaStarInf*k*omega exactly when betaStarInf is 0.09 or k*omega is
    zero there. *)
Theorem epsilon_ignores_coefficients m :
  (forall C c, fst (epsilon (set_coeffs C m)) c = fst (epsilon m) c)
  /\ (forall c,
        fst (epsilon m) c = betaStarInf_ (coeffs m) * k_ m c * omega_ m c
        <-> betaStarInf_ (coeffs m) = 0.09 \/ k_ m c * omega_ m c = 0).
Proof.
  split; [reflexivity|].
  intros c; change (fst (epsilon m) c) with (0.09 * k_ m c * omega_ m c).
  split.
  - intros E.
    assert (P : (0.09 - betaStarInf_ (coeffs m)) * (k_ m c * omega_ m c) = 0)
      by (ring_simplify; lra).
    destruct (Rmult_integral _ _ P) as [H | H]; [left; lra | right; exact H].
  - intros [-> | H]; [reflexivity|].
    rewrite !Rmult_assoc, H; ring.
Qed.

(** X14: where k and omega are non-negative so is [epsilon]; it is zero
    exactly where k or omega is zero. *)
Theorem epsilon_sign m c :
  (0 <= k_ m c -> 0 <= omega_ m c -> 0 <= fst (epsilon m) c)
  /\ (fst (epsilon m) c = 0 <-> k_ m c = 0 \/ omega_ m c = 0).
Proof.
  change (fst (epsilon m) c) with (0.09 * k_ m c * omega_ m c); split.
  - intros Hk Ho; pose proof (Rmult_le_pos _ _ Hk Ho); lra.
  - split.
    + intros E; apply Rmult_integral; lra.
    + intros [H | H]; rewrite H; ring.
Qed.

End EpsilonMore.

(** ** The further properties at the example data *)

Lemma blend_between_witness :
  0 <= 0.5 <= 1
  /\ Rmin 0.075 0.0828 <= blend (uniform 0.5) 0.075 0.0828 0%nat
     <= Rmax 0.075 0.0828.
Proof.
  assert (H : 0 <= 0.5 <= 1) by lra.
  split; [exact H|].
  exact (blend_between (uniform 0.5) 0.075 0.0828 0%nat H).
Defined.

Lemma blend_monotone_witness :
  (0.25 <= 0.5 /\ 0.075 <= 0.0828)
  /\ blend (uniform 0.5) 0.075 0.0828 0%nat
     <= blend (uniform 0.25) 0.075 0.0828 0%nat.
Proof.
  assert (H : 0.25 <= 0.5 /\ 0.075 <= 0.0828) by lra.
  split; [exact H|].
  exact (proj2 (blend_monotone (uniform 0.25) (uniform 0.5) 0.075 0.0828
                  0%nat (proj1 H)) (proj2 H)).
Defined.

Lemma blend_recovers_weight_witness :
  0.075 <> 0.0828
  /\ 0.5 = (blend (uniform 0.5) 0.075 0.0828 0%nat - 0.0828) / (0.075 - 0.0828).
Proof.
  assert (H : 0.075 <> 0.0828) by lra.
  split; [exact H|].
  exact (proj1 (blend_recovers_weight (uniform 0.5) (uniform 0.5)
                  0.075 0.0828 0%nat H)).
Defined.

Lemma beta_alphaInf_between_witness :
  0 <= 0.5 <= 1
  /\ Rmin 0.075 0.0828 <= beta exampleCoeffs (uniform 0.5) 0%nat
     <= Rmax 0.075 0.0828.
Proof.
  assert (H : 0 <= 0.5 <= 1) by lra.
  split; [exact H|].
  exact (proj1 (beta_alphaInf_between exampleCoeffs (uniform 0.5) 0%nat H)).
Defined.

Lemma sigma_between_witness :
  (0 <= 0.5 <= 1 /\ 0 < 1.176 /\ 0 < 1 /\ 0 < 2 /\ 0 < 1.168)
  /\ Rmin 1.176 1 <= sigmaK exampleCoeffs (uniform 0.5) 0%nat <= Rmax 1.176 1.
Proof.
  assert (H : 0 <= 0.5 <= 1 /\ 0 < 1.176 /\ 0 < 1 /\ 0 < 2 /\ 0 < 1.168)
    by lra.
  split; [exact H|].
  destruct H as (HF & Hk1 & Hk2 & Ho1 & Ho2).
  exact (proj1 (sigma_between exampleCoeffs (uniform 0.5) 0%nat
                  HF Hk1 Hk2 Ho1 Ho2)).
Defined.

Lemma sigma_below_linear_blend_witness :
  (0 <= 0.5 <= 1 /\ 0 < 1.176 /\ 0 < 1 /\ 0 < 2 /\ 0 < 1.168)
  /\ sigmaK exampleCoeffs (uniform 0.5) 0%nat
     <= blend (uniform 0.5) 1.176 1 0%nat.
Proof.
  assert (H : 0 <= 0.5 <= 1 /\ 0 < 1.176 /\ 0 < 1 /\ 0 < 2 /\ 0 < 1.168)
    by lra.
  split; [exact H|].
  destruct H as (HF & Hk1 & Hk2 & Ho1 & Ho2).
  exact (proj1 (sigma_below_linear_blend exampleCoeffs (uniform 0.5) 0%nat
                  HF Hk1 Hk2 Ho1 Ho2)).
Defined.

Lemma diffusivity_blends_branches_witness :
  (0 < 1.176 /\ 0 < 1 /\ 0 < 2 /\ 0 < 1.168)
  /\ DkEff exampleModel (uniform 0.5) 0%nat
     = 0.5 * (0.001 / 1.176 + 0.000015) + (1 - 0.5) * (0.001 / 1 + 0.000015).
Proof.
  assert (H : 0 < 1.176 /\ 0 < 1 /\ 0 < 2 /\ 0 < 1.168) by lra.
  split; [exact H|].
  destruct H as (Hk1 & Hk2 & Ho1 & Ho2).
  exact (proj1 (diffusivity_blends_branches exampleModel (uniform 0.5) 0%nat
                  Hk1 Hk2 Ho1 Ho2)).
Defined.

Lemma diffusivity_grows_with_nut_witness :
  (0 <= 0.5 <= 1 /\ 0 < 1.176 /\ 0 < 1 /\ 0 < 2 /\ 0 < 1.168
   /\ 0.001 <= 0.002)
  /\ DkEff exampleModel (uniform 0.5) 0%nat
     <= DkEff (set_nut (uniform 0.002) exampleModel) (uniform 0.5) 0%nat.
Proof.
  assert (H : 0 <= 0.5 <= 1 /\ 0 < 1.176 /\ 0 < 1 /\ 0 < 2 /\ 0 < 1.168
              /\ 0.001 <= 0.002) by lra.
  split; [exact H|].
  destruct H as (HF & Hk1 & Hk2 & Ho1 & Ho2 & Hn).
  exact (proj1 (proj2 (diffusivity_grows_with_nut exampleModel (uniform 0.5)
                         (uniform 0.002) 0%nat HF Hk1 Hk2 Ho1 Ho2) Hn)).
Defined.

Lemma diffusivity_bounds_witness :
  (0 <= 0.5 <= 1 /\ 0 < 1.176 /\ 0 < 1 /\ 0 < 2 /\ 0 < 1.168 /\ 0 <= 0.001)
  /\ 0.001 / Rmax 1.176 1 + 0.000015
     <= DkEff exampleModel (uniform 0.5) 0%nat
     <= 0.001 / Rmin 1.176 1 + 0.000015.
Proof.
  assert (H : 0 <= 0.5 <= 1 /\ 0 < 1.176 /\ 0 < 1 /\ 0 < 2 /\ 0 < 1.168
              /\ 0 <= 0.001) by lra.
  split; [exact H|].
  destruct H as (HF & Hk1 & Hk2 & Ho1 & Ho2 & Hn).
  exact (proj1 (diffusivity_bounds exampleModel (uniform 0.5) 0%nat
                  HF Hk1 Hk2 Ho1 Ho2 Hn)).
Defined.

Lemma DomegaEff_le_DkEff_witness :
  (0 <= 0.5 <= 1 /\ 0 < 1.176 /\ 0 < 1 /\ 1.176 <= 2 /\ 1 <= 1.168
   /\ 0 <= 0.001)
  /\ DomegaEff exampleModel (uniform 0.5) 0%nat
     <= DkEff exampleModel (uniform 0.5) 0%nat.
Proof.
  assert (H : 0 <= 0.5 <= 1 /\ 0 < 1.176 /\ 0 < 1 /\ 1.176 <= 2 /\ 1 <= 1.168
              /\ 0 <= 0.001) by lra.
  split; [exact H|].
  destruct H as (HF & Hk1 & Hk2 & H1 & H2 & Hn).
  exact (DomegaEff_le_DkEff exampleModel (uniform 0.5) 0%nat
           HF Hk1 Hk2 H1 H2 Hn).
Defined.

Lemma alphaInf_relation_witness :
  (0 <= 0.5 <= 1 /\ 0 < 2 /\ 0 < 1.168 /\ 0 < 0.09)
  /\ alphaInf exampleCoeffs (uniform 0.5) 0%nat
     = beta exampleCoeffs (uniform 0.5) 0%nat / 0.09
       - sqr 0.41 / (sigmaOmega exampleCoeffs (uniform 0.5) 0%nat * sqrt 0.09).
Proof.
  assert (H : 0 <= 0.5 <= 1 /\ 0 < 2 /\ 0 < 1.168 /\ 0 < 0.09) by lra.
  split; [exact H|].
  destruct H as (HF & Ho1 & Ho2 & Hb).
  exact (alphaInf_relation exampleCoeffs (uniform 0.5) 0%nat HF Ho1 Ho2 Hb).
Defined.

Lemma epsilon_ignores_coefficients_witness :
  betaStarInf_ (coeffs exampleModel) = 0.09
  /\ fst (epsilon exampleModel) 0%nat = 0.09 * 0.01 * 10.
Proof.
  split; [reflexivity|].
  exact (proj2 (proj2 (epsilon_ignores_coefficients exampleModel) 0%nat)
           (or_introl eq_refl)).
Defined.

Lemma epsilon_sign_witness :
  (0 <= 0.01 /\ 0 <= 10) /\ 0 <= fst (epsilon exampleModel) 0%nat.
Proof.
  assert (H : 0 <= 0.01 /\ 0 <= 10) by lra.
  split; [exact H|].
  exact (proj1 (epsilon_sign exampleModel 0%nat) (proj1 H) (proj2 H)).
Defined.
